(** * MedicalDiagnosis: the encrypted-record ledger and its web client

    A shallow embedding of the Solidity contract [MedicalDiagnosis]
    (record store, proof-checked resolution, read accessors) and of the
    client routine [decryptData] of [App.tsx], with the properties of the
    record lifecycle proved over them. *)

From Stdlib Require Import ZArith List Bool Lia.
From Stdlib Require Import Strings.Byte.
From stdpp Require Import gmap strings list fin_maps.

Local Open Scope Z_scope.

(** ** Solidity value types *)

(** [address]: a 160-bit account number; the never-written value is 0. *)
Definition address := Z.
(** [euint32] / [externalEuint32]: a 32-byte ciphertext handle; 0 is the
    uninitialised handle. *)
Definition euint32 := Z.
Definition externalEuint32 := Z.
Definition bytes := list byte.

#[global] Instance byte_eq_decision : EqDecision byte := Byte.byte_eq_dec.

Record PatientCase := mkCase {
  patientAddress : address;
  encryptedSymptoms : euint32;
  diagnosisResult : Z;
  isDiagnosed : bool;
  timestamp : Z
}.

(** What a mapping slot reads as before anything was written to it. *)
Definition zero_case : PatientCase := mkCase 0 0 0 false 0.

Inductive Event :=
| CaseCreated (caseId : string) (patient : address)
| DiagnosisComplete (caseId : string) (result : Z).

(** Modelled from the spec: the access-control list of the external FHE
    provider, reduced to the two grants the contract issues: a persistent
    permission of an account on a handle, and the public-decryptability
    flag of a handle.  The provider offers no call that takes a grant
    back, so the model has insertion only. *)
Record Acl := mkAcl {
  allowed : gset (Z * Z);
  publiclyDecryptable : gset Z
}.

Record State := mkState {
  cases : gmap string PatientCase;
  caseIds : list string;
  events : list Event;
  acl : Acl
}.

Definition init_state : State := mkState ∅ [] [] (mkAcl ∅ ∅).

(** ** Reverts *)

Inductive Error :=
| CaseAlreadyExists
| InvalidEncryptedInput
| CaseDoesNotExist
| CaseAlreadyDiagnosed
| InputProofRejected
| SignaturesRejected
| AbiDecodeFailed
| IndexOutOfBounds.

Inductive Result (A : Type) :=
| Ok (a : A)
| Revert (e : Error).
Arguments Ok {A} a.
Arguments Revert {A} e.

(** ** The transaction monad: state passing with revert *)

Definition Tx (A : Type) : Type := State → Result (A * State).

Definition tx_ret {A} (a : A) : Tx A := λ s, Ok (a, s).
Definition tx_bind {A B} (m : Tx A) (k : A → Tx B) : Tx B :=
  λ s, match m s with
       | Ok (a, s') => k a s'
       | Revert e => Revert e
       end.

Declare Scope tx_scope.
Delimit Scope tx_scope with tx.
Notation "'let!' x := m 'in' k" := (tx_bind m (λ x, k))
  (at level 10, x name, m at level 100, k at level 200) : tx_scope.
Notation "m ;;; k" := (tx_bind m (λ _, k))
  (at level 100, k at level 200, right associativity) : tx_scope.

Definition require (b : bool) (e : Error) : Tx unit :=
  λ s, if b then Ok (tt, s) else Revert e.
(** A built-in or library call that either gives a value or reverts. *)
Definition or_revert {A} (o : option A) (e : Error) : Tx A :=
  λ s, match o with
       | Some a => Ok (a, s)
       | None => Revert e
       end.

(** [cases[caseId]] as an r-value. *)
Definition case_at (s : State) (caseId : string) : PatientCase :=
  default zero_case (cases s !! caseId).

Definition sload (caseId : string) : Tx PatientCase :=
  λ s, Ok (case_at s caseId, s).
Definition sstore (caseId : string) (c : PatientCase) : Tx unit :=
  λ s, Ok (tt, mkState (<[caseId := c]> (cases s)) (caseIds s) (events s) (acl s)).
Definition push_caseId (caseId : string) : Tx unit :=
  λ s, Ok (tt, mkState (cases s) (caseIds s ++ [caseId]) (events s) (acl s)).
Definition emit (e : Event) : Tx unit :=
  λ s, Ok (tt, mkState (cases s) (caseIds s) (events s ++ [e]) (acl s)).

(** ** Built-ins *)

(** [bytes(a).length] for an address [a].  Solidity has the [bytes(...)]
    conversion for strings only, so the language gives the expression
    [bytes(cases[caseId].patientAddress).length] of the four [require]
    statements no value.  The contract is therefore embedded for every
    value the expression could take: the length is a parameter, and
    nothing below assumes which addresses it sends to 0. *)
Class AddressBytes := {
  address_bytes_length : address → Z
}.

(** Big-endian number of a byte string. *)
Definition be_to_Z (bs : bytes) : Z :=
  fold_left (λ acc b, acc * 256 + Z.of_N (Byte.to_N b)) bs 0.

Definition byte_of_Z (z : Z) : byte :=
  match Byte.of_N (Z.to_N (z mod 256)) with
  | Some b => b
  | None => x00
  end.

(** The [n] low-order bytes of [v], most significant first. *)
Fixpoint be_bytes (n : nat) (v : Z) : bytes :=
  match n with
  | O => []
  | S n' => be_bytes n' (v / 256) ++ [byte_of_Z v]
  end.

(** [abi.encode(uint32 v)]: one 32-byte word. *)
Definition abi_encode_uint32 (v : Z) : bytes := be_bytes 32 v.

(** [abi.decode(data, (uint32))]: reverts on fewer than 32 bytes and on a
    first word outside the uint32 range; bytes after the first word are
    ignored. *)
Definition abi_decode_uint32 (data : bytes) : option Z :=
  if (Z.of_nat (length data) <? 32) then None
  else let w := be_to_Z (take 32 data) in
       if w <? 2 ^ 32 then Some w else None.

(** ** The external FHE provider *)

(** The two verification primitives of the provider, as a capability
    interface.  [fromExternal sender handle proof] checks an admission
    proof for the submitting account and gives the internal handle, or
    reverts ([None]).  [checkSignatures cts payload proof] checks that
    [proof] attests [payload] as the cleartexts of exactly the handles
    [cts]; [false] is a revert. *)
Class FheProvider := {
  fromExternal : address → externalEuint32 → bytes → option euint32;
  checkSignatures : list Z → bytes → bytes → bool
}.

(** [FHE.isInitialized]. *)
Definition isInitialized (h : euint32) : bool := negb (h =? 0).
(** [FHE.toBytes32]. *)
Definition toBytes32 (h : euint32) : Z := h.

Definition allow (h : euint32) (account : address) : Tx unit :=
  λ s, Ok (tt, mkState (cases s) (caseIds s) (events s)
                 (mkAcl ({[ (h, account) ]} ∪ allowed (acl s))
                        (publiclyDecryptable (acl s)))).
Definition makePubliclyDecryptable (h : euint32) : Tx unit :=
  λ s, Ok (tt, mkState (cases s) (caseIds s) (events s)
                 (mkAcl (allowed (acl s))
                        ({[ h ]} ∪ publiclyDecryptable (acl s)))).

(** ** The contract *)

Record Msg := mkMsg {
  msg_sender : address;
  block_timestamp : Z
}.

Section Contract.
Context {fhe : FheProvider} {ab : AddressBytes}.
(** [address(this)]. *)
Variable this : address.

Local Open Scope tx_scope.

Definition fromExternalTx (msg : Msg) (h : externalEuint32) (proof : bytes)
  : Tx euint32 :=
  or_revert (fromExternal (msg_sender msg) h proof) InputProofRejected.

Definition allowThis (h : euint32) : Tx unit := allow h this.

Definition createCase (msg : Msg) (caseId : string)
    (encrypted : externalEuint32) (inputProof : bytes) : Tx unit :=
  let! c := sload caseId in
  require (address_bytes_length (patientAddress c) =? 0) CaseAlreadyExists ;;;
  let! probe := fromExternalTx msg encrypted inputProof in
  require (isInitialized probe) InvalidEncryptedInput ;;;
  let! h := fromExternalTx msg encrypted inputProof in
  sstore caseId {| patientAddress := msg_sender msg;
                   encryptedSymptoms := h;
                   diagnosisResult := 0;
                   isDiagnosed := false;
                   timestamp := block_timestamp msg |} ;;;
  let! c1 := sload caseId in
  allowThis (encryptedSymptoms c1) ;;;
  let! c2 := sload caseId in
  makePubliclyDecryptable (encryptedSymptoms c2) ;;;
  push_caseId caseId ;;;
  emit (CaseCreated caseId (msg_sender msg)).

Definition diagnoseCase (caseId : string)
    (abiEncodedResult diagnosisProof : bytes) : Tx unit :=
  let! c := sload caseId in
  require (0 <? address_bytes_length (patientAddress c)) CaseDoesNotExist ;;;
  let! c0 := sload caseId in
  require (negb (isDiagnosed c0)) CaseAlreadyDiagnosed ;;;
  let! c1 := sload caseId in
  let cts := [toBytes32 (encryptedSymptoms c1)] in
  require (checkSignatures cts abiEncodedResult diagnosisProof)
          SignaturesRejected ;;;
  let! result := or_revert (abi_decode_uint32 abiEncodedResult) AbiDecodeFailed in
  let! c2 := sload caseId in
  sstore caseId {| patientAddress := patientAddress c2;
                   encryptedSymptoms := encryptedSymptoms c2;
                   diagnosisResult := result;
                   isDiagnosed := isDiagnosed c2;
                   timestamp := timestamp c2 |} ;;;
  let! c3 := sload caseId in
  sstore caseId {| patientAddress := patientAddress c3;
                   encryptedSymptoms := encryptedSymptoms c3;
                   diagnosisResult := diagnosisResult c3;
                   isDiagnosed := true;
                   timestamp := timestamp c3 |} ;;;
  emit (DiagnosisComplete caseId result).

Definition getEncryptedSymptoms (caseId : string) : Tx euint32 :=
  let! c := sload caseId in
  require (0 <? address_bytes_length (patientAddress c)) CaseDoesNotExist ;;;
  let! c1 := sload caseId in
  tx_ret (encryptedSymptoms c1).

Definition getCaseDetails (caseId : string) : Tx (address * Z * bool * Z) :=
  let! c0 := sload caseId in
  require (0 <? address_bytes_length (patientAddress c0)) CaseDoesNotExist ;;;
  let! c := sload caseId in
  tx_ret (patientAddress c, diagnosisResult c, isDiagnosed c, timestamp c).

Definition getAllCaseIds : Tx (list string) :=
  λ s, Ok (caseIds s, s).

Definition verifyContractActive : bool := true.

(** The getters Solidity generates for the two [public] state
    variables: [cases(caseId)] and [caseIds(index)]. *)
Definition cases_getter (caseId : string) : Tx PatientCase := sload caseId.
Definition caseIds_getter (index : Z) : Tx string :=
  λ s, if (0 <=? index) && (index <? Z.of_nat (length (caseIds s)))
       then match caseIds s !! Z.to_nat index with
            | Some i => Ok (i, s)
            | None => Revert IndexOutOfBounds
            end
       else Revert IndexOutOfBounds.

(** *** Transactions *)

Inductive Call :=
| CreateCase (caseId : string) (encrypted : externalEuint32) (inputProof : bytes)
| DiagnoseCase (caseId : string) (abiEncodedResult diagnosisProof : bytes)
| GetEncryptedSymptoms (caseId : string)
| GetCaseDetails (caseId : string)
| GetAllCaseIds
| VerifyContractActive
| CasesGetter (caseId : string)
| CaseIdsGetter (index : Z).

Inductive Value :=
| VUnit
| VHandle (h : euint32)
| VDetails (d : address * Z * bool * Z)
| VIds (ids : list string)
| VBool (b : bool)
| VCase (c : PatientCase)
| VString (i : string).

Definition tx_map {A B} (f : A → B) (m : Tx A) : Tx B :=
  let! a := m in tx_ret (f a).

Definition dispatch (msg : Msg) (c : Call) : Tx Value :=
  match c with
  | CreateCase i e p => tx_map (λ _, VUnit) (createCase msg i e p)
  | DiagnoseCase i r p => tx_map (λ _, VUnit) (diagnoseCase i r p)
  | GetEncryptedSymptoms i => tx_map VHandle (getEncryptedSymptoms i)
  | GetCaseDetails i => tx_map VDetails (getCaseDetails i)
  | GetAllCaseIds => tx_map VIds getAllCaseIds
  | VerifyContractActive => tx_ret (VBool verifyContractActive)
  | CasesGetter i => tx_map VCase (cases_getter i)
  | CaseIdsGetter n => tx_map VString (caseIds_getter n)
  end.

(** One external call: it runs to completion, and a revert discards
    every write it made. *)
Definition transact (s : State) (msg : Msg) (c : Call) : State * Result Value :=
  match dispatch msg c s with
  | Ok (v, s') => (s', Ok v)
  | Revert e => (s, Revert e)
  end.

Definition succeeds (s : State) (msg : Msg) (c : Call) : bool :=
  match snd (transact s msg c) with
  | Ok _ => true
  | Revert _ => false
  end.

(** A history: the calls the contract received, oldest first. *)
Fixpoint run (s : State) (h : list (Msg * Call)) : State :=
  match h with
  | [] => s
  | (m, c) :: h' => run (fst (transact s m c)) h'
  end.

(** The identifiers of the successful [createCase] calls of a history,
    in call order. *)
Fixpoint created (s : State) (h : list (Msg * Call)) : list string :=
  match h with
  | [] => []
  | (m, c) :: h' =>
      let rest := created (fst (transact s m c)) h' in
      match c with
      | CreateCase i _ _ => if succeeds s m c then i :: rest else rest
      | _ => rest
      end
  end.

(** The values decoded from the payloads of the successful
    [diagnoseCase] calls of a history on [caseId], in call order. *)
Fixpoint resolutions (caseId : string) (s : State) (h : list (Msg * Call))
  : list Z :=
  match h with
  | [] => []
  | (m, c) :: h' =>
      let rest := resolutions caseId (fst (transact s m c)) h' in
      match c with
      | DiagnoseCase i enc _ =>
          if succeeds s m c && bool_decide (i = caseId)
          then default 0 (abi_decode_uint32 enc) :: rest else rest
      | _ => rest
      end
  end.

(** The state a successful [createCase] leaves, [h] being the admitted
    handle. *)
Definition created_state (s : State) (m : Msg) (caseId : string) (h : euint32)
  : State :=
  mkState (<[caseId := mkCase (msg_sender m) h 0 false (block_timestamp m)]> (cases s))
          (caseIds s ++ [caseId])
          (events s ++ [CaseCreated caseId (msg_sender m)])
          (mkAcl ({[ (h, this) ]} ∪ allowed (acl s))
                 ({[ h ]} ∪ publiclyDecryptable (acl s))).

(** The state a successful [diagnoseCase] leaves, [v] being the decoded
    result. *)
Definition resolved_case (c : PatientCase) (v : Z) : PatientCase :=
  mkCase (patientAddress c) (encryptedSymptoms c) v true (timestamp c).

Definition resolved_state (s : State) (caseId : string) (v : Z) : State :=
  mkState (<[caseId := resolved_case (case_at s caseId) v]> (cases s))
          (caseIds s)
          (events s ++ [DiagnosisComplete caseId v])
          (acl s).

Definition mutator (c : Call) : bool :=
  match c with
  | CreateCase _ _ _ | DiagnoseCase _ _ _ => true
  | _ => false
  end.

(** What one call can do to the state: nothing (a read, or a revert), an
    admission, or a resolution. *)
Inductive Effect (s : State) (m : Msg) (c : Call) : State → Prop :=
| effect_none :
    (mutator c = true → succeeds s m c = false) →
    Effect s m c s
| effect_created i e p h :
    c = CreateCase i e p →
    succeeds s m c = true →
    address_bytes_length (patientAddress (case_at s i)) = 0 →
    fromExternal (msg_sender m) e p = Some h →
    h ≠ 0 →
    Effect s m c (created_state s m i h)
| effect_resolved i enc proof v :
    c = DiagnoseCase i enc proof →
    succeeds s m c = true →
    0 < address_bytes_length (patientAddress (case_at s i)) →
    isDiagnosed (case_at s i) = false →
    checkSignatures [encryptedSymptoms (case_at s i)] enc proof = true →
    abi_decode_uint32 enc = Some v →
    Effect s m c (resolved_state s i v).

(** The two flags of a record agree: a diagnosed record passes the
    existence test, and a record that is not diagnosed holds the zero
    result. *)
Definition consistent (s : State) : Prop :=
  ∀ i, (isDiagnosed (case_at s i) = true →
        0 < address_bytes_length (patientAddress (case_at s i)))
       ∧ (isDiagnosed (case_at s i) = false → diagnosisResult (case_at s i) = 0).

End Contract.

(** ** The web client: [decryptData] of [App.tsx] *)

(** A JavaScript number that came from an integer: an integer-valued
    double, NaN for a missing value, or an infinity. *)
Inductive JsNumber :=
| Num (z : Z)
| NaN
| Infinity (negative : bool).

(** The double nearest to an integer: exact below 2^53 in magnitude,
    above it rounded to 53 significant bits with ties to the even
    significand, and an infinity once the rounded magnitude reaches
    2^1024. *)
Definition double_of_Z (z : Z) : JsNumber :=
  let a := Z.abs z in
  if a <? 2 ^ 53 then Num z
  else
    let e := Z.log2 a - 52 in
    let q := a / 2 ^ e in
    let r := a mod 2 ^ e in
    let half := 2 ^ (e - 1) in
    let q' := if (half <? r) || ((r =? half) && Z.odd q) then q + 1 else q in
    if 2 ^ 1024 <=? q' * 2 ^ e then Infinity (z <? 0)
    else Num (Z.sgn z * (q' * 2 ^ e)).

(** [Number(x)] for an integer read from the chain or from a cleartext
    map; a missing entry is [undefined]. *)
Definition Number (x : option Z) : JsNumber :=
  match x with
  | Some z => double_of_Z z
  | None => NaN
  end.

(** [n || 0]. *)
Definition or_zero (n : JsNumber) : JsNumber :=
  match n with
  | Num z => if z =? 0 then Num 0 else Num z
  | NaN => Num 0
  | Infinity b => Infinity b
  end.

(** [hay.includes(needle)]. *)
Fixpoint includes (needle hay : string) : bool :=
  String.prefix needle hay ||
  match hay with
  | EmptyString => false
  | String _ rest => includes needle rest
  end.

(** The client's asynchronous code: it reads and writes the chain and
    either returns or throws an error with a message. *)
Inductive Completion (A : Type) :=
| Returned (a : A) (s : State)
| Thrown (message : string) (s : State).
Arguments Returned {A} a s.
Arguments Thrown {A} message s.

Definition Client (A : Type) : Type := State → Completion A.

Definition client_ret {A} (a : A) : Client A := λ s, Returned a s.
Definition client_bind {A B} (m : Client A) (k : A → Client B) : Client B :=
  λ s, match m s with
       | Returned a s' => k a s'
       | Thrown e s' => Thrown e s'
       end.

Declare Scope client_scope.
Delimit Scope client_scope with client.
Notation "'await!' x := m 'in' k" := (client_bind m (λ x, k))
  (at level 10, x name, m at level 100, k at level 200) : client_scope.

(** The fields of [getBusinessData] that [decryptData] reads. *)
Record BusinessData := mkBusinessData {
  isVerified : bool;
  decryptedValue : Z
}.

(** The contract handle as [decryptData] uses it: the three methods it
    calls, each returning or throwing.  The ABI binding that
    [getContractReadOnly] and [getContractWithSigner] load is not among
    the sources, so the handle is an interface. *)
Class ContractApi := {
  getBusinessData : string → Client BusinessData;
  getEncryptedValue : string → Client Z;
  verifyDecryption : Msg → string → bytes → bytes → Client unit
}.

(** What the decryption round trip gives back. *)
Record DecryptionResult := mkDecryptionResult {
  clearValues : gmap Z Z;
  abiEncodedClearValues : bytes;
  decryptionProof : bytes
}.

(** The [verifyDecryption] of the [useDecrypt] hook, which is not among
    the sources: handles, contract address and the commit callback. *)
Class DecryptHook := {
  hook_verifyDecryption :
    list Z → address → (bytes → bytes → Client unit) → Client DecryptionResult
}.

(** Modelled from the spec: the external decryption service; for a set
    of handles and a context it gives cleartexts keyed by handle, their
    encoding and a proof, or nothing. *)
Class DecryptionService := {
  publicDecrypt : list Z → address → option DecryptionResult
}.

(** Modelled from the spec: the round trip of the [useDecrypt] hook.  It
    submits the handles and the context to the decryption service,
    invokes the callback with the encoded cleartexts and the proof so
    that the caller commits them, and returns the cleartext map; it
    fails when the service gives no result, and a failure of the commit
    is its failure. *)
Definition spec_verifyDecryption {svc : DecryptionService}
    (handles : list Z) (context : address)
    (resultCallback : bytes → bytes → Client unit) : Client DecryptionResult :=
  λ s, match publicDecrypt handles context with
       | None => Thrown "DecryptionRejected" s
       | Some r =>
           match resultCallback (abiEncodedClearValues r) (decryptionProof r) s with
           | Returned _ s' => Returned r s'
           | Thrown e s' => Thrown e s'
           end
       end.

Definition spec_hook {svc : DecryptionService} : DecryptHook :=
  {| hook_verifyDecryption := spec_verifyDecryption |}.

Inductive Status :=
| StatusPending
| StatusSuccess
| StatusError.

(** The wallet and page state [decryptData] reads.  [interleaved] is what
    the transactions of other accounts, mined while the client awaits
    between its first read and its commit, do to the chain. *)
Record ClientEnv := mkClientEnv {
  isConnected : bool;
  wallet : option address;
  contractRead : bool;
  contractWrite : bool;
  contractAddress : address;
  tx_time : Z;
  interleaved : State → State
}.

(** What a run of [decryptData] leaves: the value of the promise
    ([None] is [null]), the last transaction status shown, the chain. *)
Record Outcome := mkOutcome {
  returned : option JsNumber;
  shown : option Status;
  chain : State
}.

Section Client.
Context {api : ContractApi} {hook : DecryptHook}.
Variable env : ClientEnv.

Local Open Scope client_scope.

Definition signer_msg : Msg :=
  mkMsg (default 0 (wallet env)) (tx_time env).

(** The [try] block. *)
Definition decryptData_try (businessId : string)
  : Client (option JsNumber * option Status) :=
  if negb (contractRead env) then client_ret (None, None) else
  await! businessData := getBusinessData businessId in
  if isVerified businessData then
    let storedValue := or_zero (Number (Some (decryptedValue businessData))) in
    client_ret (Some storedValue, Some StatusSuccess)
  else
  if negb (contractWrite env) then client_ret (None, None) else
  await! _ := (λ s, Returned tt (interleaved env s)) in
  await! encryptedValueHandle := getEncryptedValue businessId in
  await! result :=
    hook_verifyDecryption [encryptedValueHandle] (contractAddress env)
      (λ abiEncoded proof,
         verifyDecryption signer_msg businessId abiEncoded proof) in
  let clearValue := clearValues result !! encryptedValueHandle in
  client_ret (Some (Number clearValue), Some StatusSuccess).

Definition decryptData (businessId : string) (s : State) : Outcome :=
  if negb (isConnected env) || negb (bool_decide (is_Some (wallet env)))
  then mkOutcome None (Some StatusError) s
  else match decryptData_try businessId s with
       | Returned (r, st) s' => mkOutcome r st s'
       | Thrown message s' =>
           if includes "Data already verified" message
           then mkOutcome None (Some StatusSuccess) s'
           else mkOutcome None (Some StatusError) s'
       end.

End Client.

(** The handle [MedicalDiagnosis] gives the client.  The contract has no
    method named [getBusinessData], [getEncryptedValue] or
    [verifyDecryption] (its entry points are [createCase],
    [diagnoseCase], [getEncryptedSymptoms], [getCaseDetails],
    [getAllCaseIds] and [verifyContractActive]), so each of the three
    calls fails without touching the chain; [failure] is the message of
    the error, which depends on the ABI file that is not among the
    sources. *)
Definition deployed_api (failure : string) : ContractApi :=
  {| getBusinessData _ := λ s, Thrown failure s;
     getEncryptedValue _ := λ s, Thrown failure s;
     verifyDecryption _ _ _ _ := λ s, Thrown failure s |}.

(** ** Test doubles *)

(** A value for the length of an address under which the four [require]
    statements tell a written owner from the never-written one: no bytes
    for the zero address, 20 for any other. *)
Definition unset_is_empty : AddressBytes :=
  {| address_bytes_length a := if a =? 0 then 0 else 20 |}.

(** An address taken as the 20 bytes it is stored in. *)
Definition twenty_bytes : AddressBytes :=
  {| address_bytes_length _ := 20 |}.

(** An address taken as the empty byte string. *)
Definition no_bytes : AddressBytes :=
  {| address_bytes_length _ := 0 |}.

(** A provider that admits every handle offered with a non-empty proof,
    and accepts as decryption proof the handles followed by the payload. *)
Definition demo_proof (cts : list Z) (payload : bytes) : bytes :=
  flat_map (be_bytes 32) cts ++ payload.

Definition demo_fhe : FheProvider :=
  {| fromExternal _ h proof :=
       match proof with [] => None | _ => Some h end;
     checkSignatures cts payload proof :=
       bool_decide (proof = demo_proof cts payload) |}.

(** A decryption service that opens every handle to 7. *)
Definition demo_service : DecryptionService :=
  {| publicDecrypt handles _ :=
       match handles with
       | [h] => Some (mkDecryptionResult {[ h := 7 ]} (abi_encode_uint32 7)
                        (demo_proof [h] (abi_encode_uint32 7)))
       | _ => None
       end |}.

(** A handle whose first read shows the record verified with the stored
    value 42. *)
Definition verified_handle : ContractApi :=
  {| getBusinessData _ := client_ret (mkBusinessData true 42);
     getEncryptedValue _ := client_ret 99;
     verifyDecryption _ _ _ _ :=
       λ s, Thrown "execution reverted: Data already verified" s |}.

(** A handle whose first read shows the record open and whose commit
    finds it verified in the meantime. *)
Definition overtaken_handle : ContractApi :=
  {| getBusinessData _ := client_ret (mkBusinessData false 0);
     getEncryptedValue _ := client_ret 99;
     verifyDecryption _ _ _ _ :=
       λ s, Thrown "execution reverted: Data already verified" s |}.

Definition alice : Msg := mkMsg 161 1000.
Definition bob : Msg := mkMsg 177 2000.
Definition demo_this : address := 3054.
Definition demo_env : ClientEnv :=
  mkClientEnv true (Some 161) true true demo_this 3000 (λ s, s).

(** Alice admits "case-A" with handle 99; Bob resolves it to 42. *)
Definition demo_created : list (Msg * Call) :=
  [(alice, CreateCase "case-A" 99 [x01])].
Definition demo_resolved : list (Msg * Call) :=
  demo_created
  ++ [(bob, DiagnoseCase "case-A" (abi_encode_uint32 42)
              (demo_proof [99] (abi_encode_uint32 42)))].

(** The store with the one record "case-A", resolved to 42. *)
Definition resolved_store : State :=
  mkState {[ "case-A" := mkCase 161 99 42 true 1000 ]} ["case-A"]
          [CaseCreated "case-A" 161; DiagnosisComplete "case-A" 42]
          (mkAcl {[ (99, demo_this) ]} {[ 99 ]}).

(** The store with the one record "case-A", open. *)
Definition open_store : State :=
  mkState {[ "case-A" := mkCase 161 99 0 false 1000 ]} ["case-A"]
          [CaseCreated "case-A" 161]
          (mkAcl {[ (99, demo_this) ]} {[ 99 ]}).

(** ** Reading the state and the log *)

(** The identifier a call addresses, if it addresses one. *)
Definition target (c : Call) : option string :=
  match c with
  | CreateCase i _ _ | DiagnoseCase i _ _
  | GetEncryptedSymptoms i | GetCaseDetails i | CasesGetter i => Some i
  | GetAllCaseIds | VerifyContractActive | CaseIdsGetter _ => None
  end.

(** The identifiers of the [CaseCreated] events of a log, in log order. *)
Fixpoint created_ids (l : list Event) : list string :=
  match l with
  | [] => []
  | CaseCreated i _ :: l' => i :: created_ids l'
  | DiagnosisComplete _ _ :: l' => created_ids l'
  end.

(** The results of the [DiagnosisComplete] events of a log for
    [caseId], in log order. *)
Fixpoint diagnosis_events (caseId : string) (l : list Event) : list Z :=
  match l with
  | [] => []
  | CaseCreated _ _ :: l' => diagnosis_events caseId l'
  | DiagnosisComplete i v :: l' =>
      if bool_decide (i = caseId) then v :: diagnosis_events caseId l'
      else diagnosis_events caseId l'
  end.

(** Every stored handle that is initialised carries both grants of
    [createCase], and an existing record has an initialised handle. *)
Definition handles_granted (this : address) (s : State) : Prop :=
  ∀ i, (patientAddress (case_at s i) ≠ 0 → encryptedSymptoms (case_at s i) ≠ 0)
       ∧ (encryptedSymptoms (case_at s i) ≠ 0 →
          encryptedSymptoms (case_at s i) ∈ publiclyDecryptable (acl s)
          ∧ (encryptedSymptoms (case_at s i), this) ∈ allowed (acl s)).

(** Every stored result is a uint32. *)
Definition results_in_range (s : State) : Prop :=
  ∀ i, 0 ≤ diagnosisResult (case_at s i) < 2 ^ 32.

(** * Properties *)

(** ** Entry points as equations *)

Section ContractFacts.
Context {fhe : FheProvider} {ab : AddressBytes}.
Variable this : address.

Lemma case_at_insert_eq (s : State) (i : string) (c : PatientCase) ids ev a :
  case_at (mkState (<[i := c]> (cases s)) ids ev a) i = c.
Proof. unfold case_at; simpl. by rewrite lookup_insert_eq. Qed.

Lemma case_at_insert_ne (s : State) (i j : string) (c : PatientCase) ids ev a :
  i ≠ j → case_at (mkState (<[i := c]> (cases s)) ids ev a) j = case_at s j.
Proof. intros Hne. unfold case_at; simpl. by rewrite lookup_insert_ne. Qed.

Lemma createCase_eq (m : Msg) (i : string) (e : externalEuint32) (p : bytes)
    (s : State) :
  createCase this m i e p s =
  if address_bytes_length (patientAddress (case_at s i)) =? 0 then
    match fromExternal (msg_sender m) e p with
    | None => Revert InputProofRejected
    | Some h =>
        if h =? 0 then Revert InvalidEncryptedInput
        else Ok (tt, created_state this s m i h)
    end
  else Revert CaseAlreadyExists.
Proof.
  unfold createCase, tx_bind, sload, require, fromExternalTx, or_revert.
  destruct (address_bytes_length (patientAddress (case_at s i)) =? 0); [|done].
  destruct (fromExternal (msg_sender m) e p) as [h|]; [|done].
  unfold isInitialized. destruct (h =? 0); [done|]. simpl.
  unfold sstore, allowThis, allow, makePubliclyDecryptable, push_caseId, emit.
  simpl. rewrite !case_at_insert_eq. simpl. done.
Qed.

Lemma diagnoseCase_eq (i : string) (enc proof : bytes) (s : State) :
  diagnoseCase i enc proof s =
  if 0 <? address_bytes_length (patientAddress (case_at s i)) then
    if isDiagnosed (case_at s i) then Revert CaseAlreadyDiagnosed
    else if checkSignatures [encryptedSymptoms (case_at s i)] enc proof then
      match abi_decode_uint32 enc with
      | Some v => Ok (tt, resolved_state s i v)
      | None => Revert AbiDecodeFailed
      end
    else Revert SignaturesRejected
  else Revert CaseDoesNotExist.
Proof.
  unfold diagnoseCase, tx_bind, sload, require, or_revert, toBytes32.
  destruct (0 <? address_bytes_length (patientAddress (case_at s i))); [|done].
  destruct (isDiagnosed (case_at s i)) eqn:Hd; [done|]. simpl.
  destruct (checkSignatures _ enc proof); [|done].
  destruct (abi_decode_uint32 enc) as [v|]; [|done].
  unfold sstore, emit. simpl. rewrite !case_at_insert_eq. simpl.
  unfold resolved_state, resolved_case. rewrite insert_insert_eq. done.
Qed.

Lemma getCaseDetails_eq (i : string) (s : State) :
  getCaseDetails i s =
  if 0 <? address_bytes_length (patientAddress (case_at s i)) then
    Ok ((patientAddress (case_at s i), diagnosisResult (case_at s i),
         isDiagnosed (case_at s i), timestamp (case_at s i)), s)
  else Revert CaseDoesNotExist.
Proof.
  unfold getCaseDetails, tx_bind, sload, require, tx_ret.
  by destruct (0 <? address_bytes_length (patientAddress (case_at s i))).
Qed.

Lemma getEncryptedSymptoms_eq (i : string) (s : State) :
  getEncryptedSymptoms i s =
  if 0 <? address_bytes_length (patientAddress (case_at s i)) then
    Ok (encryptedSymptoms (case_at s i), s)
  else Revert CaseDoesNotExist.
Proof.
  unfold getEncryptedSymptoms, tx_bind, sload, require, tx_ret.
  by destruct (0 <? address_bytes_length (patientAddress (case_at s i))).
Qed.

Lemma transact_create (s : State) (m : Msg) i e p :
  transact this s m (CreateCase i e p) =
  match createCase this m i e p s with
  | Ok (_, s') => (s', Ok VUnit)
  | Revert err => (s, Revert err)
  end.
Proof.
  unfold transact, dispatch, tx_map, tx_bind, tx_ret.
  by destruct (createCase this m i e p s) as [[[] s']|].
Qed.

Lemma transact_diagnose (s : State) (m : Msg) i enc proof :
  transact this s m (DiagnoseCase i enc proof) =
  match diagnoseCase i enc proof s with
  | Ok (_, s') => (s', Ok VUnit)
  | Revert err => (s, Revert err)
  end.
Proof.
  unfold transact, dispatch, tx_map, tx_bind, tx_ret.
  by destruct (diagnoseCase i enc proof s) as [[[] s']|].
Qed.

Lemma transact_details (s : State) (m : Msg) i :
  transact this s m (GetCaseDetails i) =
  if 0 <? address_bytes_length (patientAddress (case_at s i)) then
    (s, Ok (VDetails (patientAddress (case_at s i),
                      diagnosisResult (case_at s i),
                      isDiagnosed (case_at s i),
                      timestamp (case_at s i))))
  else (s, Revert CaseDoesNotExist).
Proof.
  unfold transact, dispatch, tx_map, tx_bind, tx_ret.
  rewrite getCaseDetails_eq.
  by destruct (0 <? address_bytes_length (patientAddress (case_at s i))).
Qed.

Lemma transact_symptoms (s : State) (m : Msg) i :
  transact this s m (GetEncryptedSymptoms i) =
  if 0 <? address_bytes_length (patientAddress (case_at s i)) then
    (s, Ok (VHandle (encryptedSymptoms (case_at s i))))
  else (s, Revert CaseDoesNotExist).
Proof.
  unfold transact, dispatch, tx_map, tx_bind, tx_ret.
  rewrite getEncryptedSymptoms_eq.
  by destruct (0 <? address_bytes_length (patientAddress (case_at s i))).
Qed.

Lemma transact_ids (s : State) (m : Msg) :
  transact this s m GetAllCaseIds = (s, Ok (VIds (caseIds s))).
Proof. done. Qed.

Lemma transact_view (s : State) (m : Msg) (c : Call) :
  mutator c = false → fst (transact this s m c) = s.
Proof.
  destruct c; simpl; try done; intros _.
  - rewrite transact_symptoms. by destruct (0 <? _).
  - rewrite transact_details. by destruct (0 <? _).
  - unfold transact, dispatch, tx_map, tx_bind, caseIds_getter; simpl.
    destruct (_ && _); [|done]. by destruct (caseIds s !! _).
Qed.

Ltac no_effect Ht :=
  rewrite Ht; simpl; apply effect_none; intros _; unfold succeeds; by rewrite Ht.

(** Every call has one of the three effects. *)
Lemma transact_effect (s : State) (m : Msg) (c : Call) :
  Effect this s m c (fst (transact this s m c)).
Proof.
  destruct (mutator c) eqn:Hmut.
  - destruct c as [i e p|i enc proof| | | | | |]; try discriminate.
    + pose proof (transact_create s m i e p) as Ht.
      rewrite createCase_eq in Ht.
      destruct (address_bytes_length (patientAddress (case_at s i)) =? 0) eqn:Hz.
      * destruct (fromExternal (msg_sender m) e p) as [h|] eqn:Hh.
        -- destruct (h =? 0) eqn:Hh0.
           ++ no_effect Ht.
           ++ rewrite Ht. simpl. eapply effect_created; eauto.
              ** unfold succeeds. by rewrite Ht.
              ** lia.
              ** lia.
        -- no_effect Ht.
      * no_effect Ht.
    + pose proof (transact_diagnose s m i enc proof) as Ht.
      rewrite diagnoseCase_eq in Ht.
      destruct (0 <? address_bytes_length (patientAddress (case_at s i))) eqn:Hz.
      2:{ no_effect Ht. }
      destruct (isDiagnosed (case_at s i)) eqn:Hd.
      { no_effect Ht. }
      destruct (checkSignatures _ enc proof) eqn:Hc.
      2:{ no_effect Ht. }
      destruct (abi_decode_uint32 enc) as [v|] eqn:Hv.
      2:{ no_effect Ht. }
      rewrite Ht. simpl. eapply effect_resolved; eauto.
      * unfold succeeds. by rewrite Ht.
      * lia.
  - rewrite transact_view by done. apply effect_none. congruence.
Qed.

End ContractFacts.

(** ** Invariants of the record store *)

Section Invariants.
Context {fhe : FheProvider} {ab : AddressBytes}.
Variable this : address.

Lemma case_at_created (s : State) (m : Msg) (i j : string) (h : euint32) :
  case_at (created_state this s m i h) j =
  if decide (i = j) then mkCase (msg_sender m) h 0 false (block_timestamp m)
  else case_at s j.
Proof.
  unfold created_state. case_decide as Hij.
  - subst j. apply case_at_insert_eq.
  - by apply case_at_insert_ne.
Qed.

Lemma case_at_resolved (s : State) (i j : string) (v : Z) :
  case_at (resolved_state s i v) j =
  if decide (i = j) then resolved_case (case_at s i) v else case_at s j.
Proof.
  unfold resolved_state. case_decide as Hij.
  - subst j. apply case_at_insert_eq.
  - by apply case_at_insert_ne.
Qed.

Lemma case_at_init (i : string) : case_at init_state i = zero_case.
Proof. unfold case_at; simpl. by rewrite lookup_empty. Qed.

Lemma consistent_init : consistent init_state.
Proof. intros i. rewrite case_at_init. by split. Qed.

Lemma consistent_step (s : State) (m : Msg) (c : Call) :
  consistent s → consistent (fst (transact this s m c)).
Proof.
  intros Hs.
  destruct (transact_effect this s m c)
    as [_|i e p h -> _ Hfree _ _|i enc proof v -> _ Hex Hopen _ _]; [done| |].
  - intros j. rewrite case_at_created. case_decide; [by split|apply Hs].
  - intros j. rewrite case_at_resolved. case_decide; [|apply Hs].
    by split.
Qed.

Lemma consistent_run (s : State) (h : list (Msg * Call)) :
  consistent s → consistent (run this s h).
Proof.
  revert s. induction h as [|[m c] h IH]; intros s Hs; [done|].
  simpl. apply IH. by apply consistent_step.
Qed.

(** A record that passes the existence test keeps its owner, handle and
    creation time. *)
Lemma existing_step (s : State) (m : Msg) (c : Call) (i : string) :
  0 < address_bytes_length (patientAddress (case_at s i)) →
  patientAddress (case_at (fst (transact this s m c)) i) = patientAddress (case_at s i)
  ∧ encryptedSymptoms (case_at (fst (transact this s m c)) i) = encryptedSymptoms (case_at s i)
  ∧ timestamp (case_at (fst (transact this s m c)) i) = timestamp (case_at s i).
Proof.
  intros Hex.
  destruct (transact_effect this s m c)
    as [_|j e p h -> _ Hfree _ _|j enc proof v -> _ _ _ _ _]; [done| |].
  - rewrite case_at_created. case_decide; [|done]. subst j. lia.
  - rewrite case_at_resolved. case_decide; [by subst j|done].
Qed.

Lemma existing_run (s : State) (h : list (Msg * Call)) (i : string) :
  0 < address_bytes_length (patientAddress (case_at s i)) →
  patientAddress (case_at (run this s h) i) = patientAddress (case_at s i)
  ∧ encryptedSymptoms (case_at (run this s h) i) = encryptedSymptoms (case_at s i)
  ∧ timestamp (case_at (run this s h) i) = timestamp (case_at s i).
Proof.
  revert s. induction h as [|[m c] h IH]; intros s Hex; [done|].
  simpl. destruct (existing_step s m c i Hex) as (Ha & Hh & Ht).
  destruct (IH (fst (transact this s m c))) as (Ha' & Hh' & Ht'); [by rewrite Ha|].
  repeat split; congruence.
Qed.

(** A diagnosed record that passes the existence test never changes
    again. *)
Lemma diagnosed_step (s : State) (m : Msg) (c : Call) (i : string) :
  0 < address_bytes_length (patientAddress (case_at s i)) →
  isDiagnosed (case_at s i) = true →
  case_at (fst (transact this s m c)) i = case_at s i.
Proof.
  intros Hex Hd.
  destruct (transact_effect this s m c)
    as [_|j e p h -> _ Hfree _ _|j enc proof v -> _ _ Hopen _ _]; [done| |].
  - rewrite case_at_created. case_decide; [|done]. subst j. lia.
  - rewrite case_at_resolved. case_decide; [congruence|done].
Qed.

Lemma diagnosed_run (s : State) (h : list (Msg * Call)) (i : string) :
  0 < address_bytes_length (patientAddress (case_at s i)) →
  isDiagnosed (case_at s i) = true →
  case_at (run this s h) i = case_at s i.
Proof.
  revert s. induction h as [|[m c] h IH]; intros s Hex Hd; [done|].
  simpl. pose proof (diagnosed_step s m c i Hex Hd) as Hst.
  rewrite IH; by rewrite Hst.
Qed.

(** The successful resolutions of a history, read off its two ends. *)
Lemma resolutions_run (s : State) (h : list (Msg * Call)) (i : string) :
  consistent s →
  resolutions this i s h =
  if isDiagnosed (case_at s i) then []
  else if isDiagnosed (case_at (run this s h) i)
       then [diagnosisResult (case_at (run this s h) i)]
       else [].
Proof.
  revert s. induction h as [|[m c] h IH]; intros s Hs.
  { simpl. by destruct (isDiagnosed (case_at s i)). }
  pose proof (consistent_step s m c Hs) as Hs'.
  specialize (IH _ Hs').
  cbn [resolutions run]. rewrite IH. clear IH.
  destruct (transact_effect this s m c)
    as [Hno|j e p h0 -> Hok Hfree _ _|j enc proof v -> Hok Hex Hopen _ Hdec].
  - destruct c; try done; simpl in Hno; rewrite Hno by done; simpl; done.
  - rewrite !case_at_created. case_decide as Hij; [|done].
    subst j. simpl.
    destruct (isDiagnosed (case_at s i)) eqn:Hd; [|done].
    destruct (Hs i) as [Hne _]. specialize (Hne Hd). lia.
  - rewrite Hok, Hdec. simpl. rewrite !case_at_resolved.
    case_bool_decide as Hij.
    + subst j. rewrite decide_True by done. simpl. rewrite Hopen.
      rewrite diagnosed_run.
      * by rewrite case_at_resolved, decide_True.
      * by rewrite case_at_resolved, decide_True.
      * by rewrite case_at_resolved, decide_True.
    + by rewrite decide_False.
Qed.

(** The catalog after a history is the catalog before it followed by the
    identifiers the history created. *)
Lemma caseIds_run (s : State) (h : list (Msg * Call)) :
  caseIds (run this s h) = caseIds s ++ created this s h.
Proof.
  revert s. induction h as [|[m c] h IH]; intros s.
  { simpl. by rewrite app_nil_r. }
  cbn [run created]. rewrite IH. clear IH.
  destruct (transact_effect this s m c)
    as [Hno|j e p h0 -> Hok _ _ _|j enc proof v -> _ _ _ _ _].
  - destruct c; try done. simpl in Hno. by rewrite Hno.
  - rewrite Hok. simpl. by rewrite <- app_assoc.
  - done.
Qed.

(** Grants are never taken back. *)
Lemma grants_step (s : State) (m : Msg) (c : Call) :
  publiclyDecryptable (acl s) ⊆ publiclyDecryptable (acl (fst (transact this s m c)))
  ∧ allowed (acl s) ⊆ allowed (acl (fst (transact this s m c))).
Proof.
  destruct (transact_effect this s m c)
    as [_|j e p h0 -> _ _ _ _|j enc proof v -> _ _ _ _ _]; simpl;
    set_solver.
Qed.

Lemma grants_run (s : State) (h : list (Msg * Call)) :
  publiclyDecryptable (acl s) ⊆ publiclyDecryptable (acl (run this s h))
  ∧ allowed (acl s) ⊆ allowed (acl (run this s h)).
Proof.
  revert s. induction h as [|[m c] h IH]; intros s; [done|].
  simpl. destruct (grants_step s m c) as [Hp Ha].
  destruct (IH (fst (transact this s m c))) as [Hp' Ha'].
  split; etrans; eauto.
Qed.

End Invariants.

(** ** ABI words *)

Lemma byte_of_Z_value (z : Z) : Z.of_N (Byte.to_N (byte_of_Z z)) = z mod 256.
Proof.
  unfold byte_of_Z.
  pose proof (Z.mod_pos_bound z 256 ltac:(lia)) as Hb.
  destruct (Byte.of_N (Z.to_N (z mod 256))) as [b|] eqn:Hof.
  - apply Byte.to_of_N in Hof. rewrite Hof. lia.
  - apply Byte.of_N_None_iff in Hof. lia.
Qed.

Lemma be_to_Z_snoc (bs : bytes) (b : byte) :
  be_to_Z (bs ++ [b]) = be_to_Z bs * 256 + Z.of_N (Byte.to_N b).
Proof. unfold be_to_Z. by rewrite fold_left_app. Qed.

Lemma be_bytes_length (n : nat) (v : Z) : length (be_bytes n v) = n.
Proof.
  revert v. induction n as [|n IH]; intros v; [done|].
  simpl. rewrite length_app, IH. simpl. lia.
Qed.

Lemma be_to_Z_be_bytes (n : nat) (v : Z) :
  be_to_Z (be_bytes n v) = v mod 256 ^ Z.of_nat n.
Proof.
  revert v. induction n as [|n IH]; intros v.
  { simpl. by rewrite Z.mod_1_r. }
  cbn [be_bytes]. rewrite be_to_Z_snoc, IH, byte_of_Z_value.
  rewrite Nat2Z.inj_succ, Z.pow_succ_r by lia.
  rewrite Z.rem_mul_r by lia. lia.
Qed.

(** Decoding an encoded uint32 gives the value back. *)
Lemma abi_decode_encode (v : Z) :
  0 ≤ v < 2 ^ 32 → abi_decode_uint32 (abi_encode_uint32 v) = Some v.
Proof.
  intros Hv. unfold abi_decode_uint32, abi_encode_uint32.
  rewrite be_bytes_length. simpl (Z.of_nat 32 <? 32).  cbv iota.
  rewrite firstn_all2 by (rewrite be_bytes_length; lia).
  rewrite be_to_Z_be_bytes.
  rewrite Z.mod_small by (change (256 ^ Z.of_nat 32) with (2 ^ 256); lia).
  destruct (v <? 2 ^ 32) eqn:Hlt; [done|]. lia.
Qed.

(** A decoded result is a uint32. *)
Lemma abi_decode_range (data : bytes) (v : Z) :
  abi_decode_uint32 data = Some v → 0 ≤ v < 2 ^ 32.
Proof.
  unfold abi_decode_uint32.
  destruct (Z.of_nat (length data) <? 32); [done|].
  destruct (be_to_Z (take 32 data) <? 2 ^ 32) eqn:Hlt; [|done].
  intros [= <-]. split; [|lia].
  unfold be_to_Z. generalize (take 32 data). intros l.
  cut (∀ acc, 0 ≤ acc →
         0 ≤ fold_left (λ acc b, acc * 256 + Z.of_N (Byte.to_N b)) l acc).
  { intros H. apply H. lia. }
  induction l as [|b l IH]; intros acc Hacc; simpl; [done|].
  apply IH. lia.
Qed.

(** ** The record lifecycle *)

Section Lifecycle.
Context {fhe : FheProvider} {ab : AddressBytes}.
Variable this : address.

Lemma create_succeeds_inv (s : State) (m : Msg) i e p :
  snd (transact this s m (CreateCase i e p)) = Ok VUnit →
  ∃ h, address_bytes_length (patientAddress (case_at s i)) = 0
       ∧ fromExternal (msg_sender m) e p = Some h ∧ h ≠ 0
       ∧ fst (transact this s m (CreateCase i e p)) = created_state this s m i h.
Proof.
  rewrite transact_create, createCase_eq.
  destruct (address_bytes_length (patientAddress (case_at s i)) =? 0) eqn:Hz; [|done].
  destruct (fromExternal (msg_sender m) e p) as [h|]; [|done].
  destruct (h =? 0) eqn:Hh; [done|]. simpl. intros _.
  exists h. repeat split; lia || done.
Qed.

Lemma diagnose_succeeds (s : State) (m : Msg) i enc proof v :
  0 < address_bytes_length (patientAddress (case_at s i)) →
  isDiagnosed (case_at s i) = false →
  checkSignatures [encryptedSymptoms (case_at s i)] enc proof = true →
  abi_decode_uint32 enc = Some v →
  transact this s m (DiagnoseCase i enc proof) = (resolved_state s i v, Ok VUnit).
Proof.
  intros Hex Hopen Hsig Hdec.
  rewrite transact_diagnose, diagnoseCase_eq, Hopen, Hsig, Hdec.
  destruct (0 <? address_bytes_length (patientAddress (case_at s i))) eqn:Hz;
    [done|lia].
Qed.

Lemma diagnose_diagnosed (s : State) (m : Msg) i enc proof :
  0 < address_bytes_length (patientAddress (case_at s i)) →
  isDiagnosed (case_at s i) = true →
  transact this s m (DiagnoseCase i enc proof) = (s, Revert CaseAlreadyDiagnosed).
Proof.
  intros Hex Hd. rewrite transact_diagnose, diagnoseCase_eq, Hd.
  destruct (0 <? address_bytes_length (patientAddress (case_at s i))) eqn:Hz;
    [done|lia].
Qed.

(** C1 (as amended): over every history of calls, [diagnoseCase]
    succeeds at most once per record; the diagnosed flag is set exactly
    when the history holds that one successful call, and the stored
    result is then the value decoded from the payload of that call,
    which may be 0; a record that is not diagnosed holds the zero
    result; and a further attempt on a diagnosed record reverts with
    "Case already diagnosed" and leaves the whole state as it was. *)
Theorem diagnose_at_most_once (h : list (Msg * Call)) (i : string) :
  (length (resolutions this i init_state h) ≤ 1)%nat
  ∧ (isDiagnosed (case_at (run this init_state h) i) = true →
     resolutions this i init_state h
       = [diagnosisResult (case_at (run this init_state h) i)]
     ∧ ∀ m enc proof,
         transact this (run this init_state h) m (DiagnoseCase i enc proof)
         = (run this init_state h, Revert CaseAlreadyDiagnosed))
  ∧ (isDiagnosed (case_at (run this init_state h) i) = false →
     resolutions this i init_state h = []
     ∧ diagnosisResult (case_at (run this init_state h) i) = 0).
Proof.
  pose proof (resolutions_run this init_state h i consistent_init) as Hres.
  rewrite case_at_init in Hres. simpl in Hres.
  pose proof (consistent_run this init_state h consistent_init i) as [Hex Hzero].
  destruct (isDiagnosed (case_at (run this init_state h) i)) eqn:Hd.
  - rewrite Hres. split; [simpl; lia|]. split; [|done].
    intros _. split; [done|]. intros m enc proof.
    apply diagnose_diagnosed; auto.
  - rewrite Hres. split; [simpl; lia|]. split; [done|].
    intros _. split; [done|]. by apply Hzero.
Qed.

(** C3: once [createCase] has admitted a record for [i] with handle [h],
    the owner passing the existence test, and while the record is still
    open, [diagnoseCase] with the ABI encoding of 42 and a proof that
    verifies for [h] and that encoding succeeds; from then on, whatever
    calls follow, [getCaseDetails i] returns the owner, 42, true and the
    creation time. *)
Theorem round_trip_42 (s s0 : State) (m m' : Msg) (i : string)
    (e : externalEuint32) (p proof : bytes) (h : euint32)
    (between : list (Msg * Call)) :
  transact this s m (CreateCase i e p) = (s0, Ok VUnit) →
  encryptedSymptoms (case_at s0 i) = h →
  0 < address_bytes_length (msg_sender m) →
  isDiagnosed (case_at (run this s0 between) i) = false →
  checkSignatures [h] (abi_encode_uint32 42) proof = true →
  ∃ s2,
    transact this (run this s0 between) m'
      (DiagnoseCase i (abi_encode_uint32 42) proof) = (s2, Ok VUnit)
    ∧ ∀ (rest : list (Msg * Call)) (m'' : Msg),
        transact this (run this s2 rest) m'' (GetCaseDetails i)
        = (run this s2 rest,
           Ok (VDetails (msg_sender m, 42, true, block_timestamp m))).
Proof.
  intros Hcreate Hh Hm Hopen Hsig.
  destruct (create_succeeds_inv s m i e p) as (h0 & Hfree & Hext & Hne & Hst).
  { by rewrite Hcreate. }
  rewrite Hcreate in Hst. simpl in Hst. subst s0.
  assert (Hc : case_at (created_state this s m i h0) i
               = mkCase (msg_sender m) h0 0 false (block_timestamp m)).
  { by rewrite case_at_created, decide_True. }
  rewrite Hc in Hh. simpl in Hh. subst h0.
  destruct (existing_run this (created_state this s m i h) between i)
    as (Howner & Hhandle & Htime).
  { rewrite Hc. exact Hm. }
  rewrite Hc in Howner, Hhandle, Htime. simpl in Howner, Hhandle, Htime.
  set (s1 := run this (created_state this s m i h) between) in *.
  assert (Hex1 : 0 < address_bytes_length (patientAddress (case_at s1 i))).
  { rewrite Howner. exact Hm. }
  exists (resolved_state s1 i 42). split.
  - apply diagnose_succeeds; [done|done| |].
    + by rewrite Hhandle.
    + apply abi_decode_encode. lia.
  - intros rest m''. rewrite transact_details.
    rewrite (diagnosed_run this _ rest i);
      rewrite ?case_at_resolved, ?decide_True by done; simpl; [|done|done].
    rewrite Howner, Htime.
    destruct (0 <? address_bytes_length (msg_sender m)) eqn:Hz; [done|lia].
Qed.

(** C4: when the proof does not verify for the handle of an open record
    that passes the existence test and the submitted encoding,
    [diagnoseCase] reverts with the signature failure and the state is
    exactly the one before the call; the record is still open. *)
Theorem rejected_proof_no_effect (s : State) (m : Msg) (i : string)
    (enc proof : bytes) :
  0 < address_bytes_length (patientAddress (case_at s i)) →
  isDiagnosed (case_at s i) = false →
  checkSignatures [encryptedSymptoms (case_at s i)] enc proof = false →
  transact this s m (DiagnoseCase i enc proof) = (s, Revert SignaturesRejected)
  ∧ isDiagnosed (case_at (fst (transact this s m (DiagnoseCase i enc proof))) i) = false
  ∧ diagnosisResult (case_at (fst (transact this s m (DiagnoseCase i enc proof))) i)
    = diagnosisResult (case_at s i).
Proof.
  intros Hex Hopen Hsig.
  assert (Ht : transact this s m (DiagnoseCase i enc proof)
               = (s, Revert SignaturesRejected)).
  { rewrite transact_diagnose, diagnoseCase_eq, Hopen, Hsig.
    destruct (0 <? address_bytes_length (patientAddress (case_at s i))) eqn:Hz;
      [done|lia]. }
  rewrite Ht. by simpl.
Qed.

(** C5: after every history, [getAllCaseIds] returns the identifiers of
    the successful [createCase] calls in call order, so its length is
    their number; a call only ever appends to the catalog, and
    [diagnoseCase] leaves it as it is. *)
Theorem catalog_append_only :
  (∀ h m, transact this (run this init_state h) m GetAllCaseIds
          = (run this init_state h, Ok (VIds (created this init_state h))))
  ∧ (∀ h, length (caseIds (run this init_state h))
          = length (created this init_state h))
  ∧ (∀ s m c, caseIds s `prefix_of` caseIds (fst (transact this s m c)))
  ∧ (∀ s h, caseIds s `prefix_of` caseIds (run this s h))
  ∧ (∀ s m i enc proof,
       caseIds (fst (transact this s m (DiagnoseCase i enc proof))) = caseIds s).
Proof.
  assert (Hrun : ∀ h, caseIds (run this init_state h) = created this init_state h).
  { intros h. by rewrite caseIds_run. }
  repeat split.
  - intros h m. by rewrite transact_ids, Hrun.
  - intros h. by rewrite Hrun.
  - intros s m c. change (fst (transact this s m c)) with (run this s [(m, c)]).
    rewrite caseIds_run. by apply prefix_app_r.
  - intros s h. rewrite caseIds_run. by apply prefix_app_r.
  - intros s m i enc proof.
    destruct (transact_effect this s m (DiagnoseCase i enc proof))
      as [_|? ? ? ? [=]|? ? ? ? _]; done.
Qed.

(** C7: a successful [createCase] flags the handle it admitted as
    publicly decryptable in that same call; a handle gets the flag by no
    other call; and no call ever removes a flag, so the handle of the
    record stays flagged through whatever follows. *)
Theorem admission_grants_decryption :
  (∀ s m i e p,
     snd (transact this s m (CreateCase i e p)) = Ok VUnit →
     fromExternal (msg_sender m) e p
     = Some (encryptedSymptoms (case_at (fst (transact this s m (CreateCase i e p))) i))
     ∧ ∀ rest,
         encryptedSymptoms (case_at (fst (transact this s m (CreateCase i e p))) i)
         ∈ publiclyDecryptable
             (acl (run this (fst (transact this s m (CreateCase i e p))) rest)))
  ∧ (∀ s m c h,
       h ∉ publiclyDecryptable (acl s) →
       h ∈ publiclyDecryptable (acl (fst (transact this s m c))) →
       ∃ i e p, c = CreateCase i e p
                ∧ snd (transact this s m c) = Ok VUnit
                ∧ fromExternal (msg_sender m) e p = Some h)
  ∧ (∀ s m c,
       publiclyDecryptable (acl s)
       ⊆ publiclyDecryptable (acl (fst (transact this s m c)))).
Proof.
  split; [|split].
  - intros s m i e p Hok.
    destruct (create_succeeds_inv s m i e p Hok) as (h & _ & Hext & _ & ->).
    rewrite case_at_created, decide_True by done. simpl. split; [done|].
    intros rest.
    apply (proj1 (grants_run this (created_state this s m i h) rest)).
    simpl. set_solver.
  - intros s m c h Hbefore Hafter.
    destruct (transact_effect this s m c)
      as [_|j e p h0 Hc Hok _ Hext _|j enc proof v _ _ _ _ _ _];
      [done| |done].
    exists j, e, p. split; [done|]. split.
    + unfold succeeds in Hok. destruct (snd (transact this s m c)) as [v|] eqn:Hr; [|done].
      subst c. rewrite transact_create in Hr.
      destruct (createCase this m j e p s) as [[[] ?]|]; simpl in Hr; congruence.
    + simpl in Hafter. apply elem_of_union in Hafter as [Hin|Hin]; [|done].
      apply elem_of_singleton in Hin. by subst h0.
  - intros s m c. apply grants_step.
Qed.

(** On the chain there is one way to become diagnosed: for an open
    record that passes the existence test, [diagnoseCase] with a
    decryption proof that verifies for the record's handle and the
    encoded cleartext succeeds, stores the decoded cleartext and sets
    the flag; a record becomes diagnosed by no other call; and a
    diagnosed record stays as it is through every later call. *)
Lemma verified_decryption_resolves :
  (∀ s m i enc proof v,
     0 < address_bytes_length (patientAddress (case_at s i)) →
     isDiagnosed (case_at s i) = false →
     checkSignatures [toBytes32 (encryptedSymptoms (case_at s i))] enc proof = true →
     abi_decode_uint32 enc = Some v →
     snd (transact this s m (DiagnoseCase i enc proof)) = Ok VUnit
     ∧ case_at (fst (transact this s m (DiagnoseCase i enc proof))) i
       = resolved_case (case_at s i) v)
  ∧ (∀ s m c i,
       isDiagnosed (case_at s i) = false →
       isDiagnosed (case_at (fst (transact this s m c)) i) = true →
       ∃ enc proof,
         c = DiagnoseCase i enc proof
         ∧ checkSignatures [toBytes32 (encryptedSymptoms (case_at s i))] enc proof = true
         ∧ abi_decode_uint32 enc
           = Some (diagnosisResult (case_at (fst (transact this s m c)) i)))
  ∧ (∀ h rest i,
       isDiagnosed (case_at (run this init_state h) i) = true →
       case_at (run this (run this init_state h) rest) i
       = case_at (run this init_state h) i).
Proof.
  split; [|split].
  - intros s m i enc proof v Hex Hopen Hsig Hdec.
    rewrite (diagnose_succeeds s m i enc proof v) by done. simpl.
    split; [done|]. by rewrite case_at_resolved, decide_True.
  - intros s m c i Hopen Hdone.
    destruct (transact_effect this s m c)
      as [_|j e p h0 _ _ _ _ _|j enc proof v Hc _ _ _ Hsig Hdec].
    + congruence.
    + rewrite case_at_created in Hdone. case_decide; simpl in Hdone; congruence.
    + rewrite case_at_resolved in Hdone |- *. case_decide as Hij; [|congruence].
      subst j. exists enc, proof. by simpl.
  - intros h rest i Hd. apply diagnosed_run; [|done].
    by apply (consistent_run this init_state h consistent_init i).
Qed.

(** C10: [verifyContractActive] is the constant true; called by any
    account in any state it returns true and leaves the state as it is. *)
Theorem verifyContractActive_always (s : State) (m : Msg) :
  verifyContractActive = true
  ∧ transact this s m VerifyContractActive = (s, Ok (VBool true)).
Proof. by split. Qed.

End Lifecycle.

(** ** The existence test under the values an address could be given *)

(** C2 (the defect): the duplicate guard of [createCase] compares the
    length of [bytes(patientAddress)] with 0.  With an address taken as
    its 20 bytes the guard refuses every [createCase], the first one on
    a fresh identifier included; with an address taken as the empty
    string it refuses none, so a second [createCase] of the same
    identifier succeeds and the catalog lists the identifier twice. *)
Theorem duplicate_guard_readings :
  (∀ (fhe : FheProvider) (this : address) (s : State) (m : Msg)
     (i : string) (e : externalEuint32) (p : bytes),
     transact (ab := twenty_bytes) this s m (CreateCase i e p)
     = (s, Revert CaseAlreadyExists))
  ∧ snd (transact (fhe := demo_fhe) (ab := no_bytes) demo_this
           (run (fhe := demo_fhe) (ab := no_bytes) demo_this init_state demo_created)
           bob (CreateCase "case-A" 98 [x02]))
    = Ok VUnit
  ∧ caseIds (run (fhe := demo_fhe) (ab := no_bytes) demo_this init_state
               (demo_created ++ [(bob, CreateCase "case-A" 98 [x02])]))
    = ["case-A"; "case-A"].
Proof.
  split; [|split].
  - intros fhe this s m i e p. by rewrite transact_create, createCase_eq.
  - vm_compute. reflexivity.
  - vm_compute. reflexivity.
Qed.

(** C6 (the defect): the existence guard of the two getters compares the
    same length with 0.  With an address taken as its 20 bytes
    [getCaseDetails] and [getEncryptedSymptoms] never revert, and for an
    identifier that was never created they return the zero record; with
    an address taken as the empty string they revert with "Case does
    not exist" also right after a successful [createCase]. *)
Theorem existence_guard_readings :
  (∀ (fhe : FheProvider) (this : address) (s : State) (m : Msg) (i : string),
     transact (ab := twenty_bytes) this s m (GetCaseDetails i)
     = (s, Ok (VDetails (patientAddress (case_at s i), diagnosisResult (case_at s i),
                         isDiagnosed (case_at s i), timestamp (case_at s i))))
     ∧ transact (ab := twenty_bytes) this s m (GetEncryptedSymptoms i)
       = (s, Ok (VHandle (encryptedSymptoms (case_at s i)))))
  ∧ transact (fhe := demo_fhe) (ab := twenty_bytes) demo_this init_state bob
      (GetCaseDetails "case-A")
    = (init_state, Ok (VDetails (0, 0, false, 0)))
  ∧ snd (transact (fhe := demo_fhe) (ab := no_bytes) demo_this init_state alice
           (CreateCase "case-A" 99 [x01]))
    = Ok VUnit
  ∧ snd (transact (fhe := demo_fhe) (ab := no_bytes) demo_this
           (run (fhe := demo_fhe) (ab := no_bytes) demo_this init_state demo_created)
           bob (GetCaseDetails "case-A"))
    = Revert CaseDoesNotExist.
Proof.
  split; [|split; [|split]].
  - intros fhe this s m i. by rewrite transact_details, transact_symptoms.
  - vm_compute. reflexivity.
  - vm_compute. reflexivity.
  - vm_compute. reflexivity.
Qed.

(** ** The client *)

Lemma double_of_Z_exact (z : Z) : Z.abs z < 2 ^ 53 → double_of_Z z = Num z.
Proof.
  intros Hz. unfold double_of_Z.
  destruct (Z.abs z <? 2 ^ 53) eqn:Hlt; [done|lia].
Qed.

Lemma or_zero_Num (v : Z) : or_zero (Num v) = Num v.
Proof.
  unfold or_zero. destruct (v =? 0) eqn:Hz; [|done].
  f_equal. lia.
Qed.



(** * Further properties of the contract *)

Section Ledger.
Context {fhe : FheProvider} {ab : AddressBytes}.
Variable this : address.

(** ** The event log *)

Lemma created_ids_app (l1 l2 : list Event) :
  created_ids (l1 ++ l2) = created_ids l1 ++ created_ids l2.
Proof.
  induction l1 as [|[i a|i v] l1 IH]; simpl; [done| |done].
  by rewrite IH.
Qed.

Lemma diagnosis_events_app (i : string) (l1 l2 : list Event) :
  diagnosis_events i (l1 ++ l2) = diagnosis_events i l1 ++ diagnosis_events i l2.
Proof.
  induction l1 as [|[j a|j v] l1 IH]; simpl; [done|done|].
  case_bool_decide; by rewrite IH.
Qed.

Lemma created_ids_run (s : State) (h : list (Msg * Call)) :
  created_ids (events (run this s h)) = created_ids (events s) ++ created this s h.
Proof.
  revert s. induction h as [|[m c] h IH]; intros s.
  { simpl. by rewrite app_nil_r. }
  cbn [run created]. rewrite IH. clear IH.
  destruct (transact_effect this s m c)
    as [Hno|j e p h0 -> Hok _ _ _|j enc proof v -> _ _ _ _ _].
  - destruct c; try done. simpl in Hno. by rewrite Hno.
  - rewrite Hok. simpl. rewrite created_ids_app. simpl. by rewrite <- app_assoc.
  - simpl. rewrite created_ids_app. simpl. by rewrite app_nil_r.
Qed.

Lemma diagnosis_events_run (i : string) (s : State) (h : list (Msg * Call)) :
  diagnosis_events i (events (run this s h))
  = diagnosis_events i (events s) ++ resolutions this i s h.
Proof.
  revert s. induction h as [|[m c] h IH]; intros s.
  { simpl. by rewrite app_nil_r. }
  cbn [run resolutions]. rewrite IH. clear IH.
  destruct (transact_effect this s m c)
    as [Hno|j e p h0 -> Hok _ _ _|j enc proof v -> Hok _ _ _ Hdec].
  - destruct c; try done. simpl in Hno. by rewrite Hno.
  - simpl. rewrite diagnosis_events_app. simpl. by rewrite app_nil_r.
  - rewrite Hok, Hdec. simpl. rewrite diagnosis_events_app. simpl.
    case_bool_decide as Hij.
    + by rewrite <- app_assoc.
    + by rewrite app_nil_r.
Qed.

(** X1: after every history the [CaseCreated] events of the log name the
    catalog, entry by entry, and the log holds a [DiagnosisComplete]
    event for a record exactly when the record is diagnosed: one event,
    carrying the stored result. *)
Theorem event_log (h : list (Msg * Call)) :
  created_ids (events (run this init_state h)) = caseIds (run this init_state h)
  ∧ ∀ i, diagnosis_events i (events (run this init_state h))
         = if isDiagnosed (case_at (run this init_state h) i)
           then [diagnosisResult (case_at (run this init_state h) i)]
           else [].
Proof.
  split.
  - by rewrite created_ids_run, caseIds_run.
  - intros i. rewrite diagnosis_events_run.
    rewrite (resolutions_run this init_state h i consistent_init).
    by rewrite case_at_init.
Qed.

(** X4: a call leaves the record of every identifier other than the one
    it addresses exactly as it was. *)
Theorem other_records_untouched (s : State) (m : Msg) (c : Call) (j : string) :
  target c ≠ Some j →
  case_at (fst (transact this s m c)) j = case_at s j.
Proof.
  intros Hj.
  destruct (transact_effect this s m c)
    as [_|i e p h0 -> _ _ _ _|i enc proof v -> _ _ _ _ _]; [done| |].
  - rewrite case_at_created. case_decide as Hij; [|done].
    subst i. by destruct Hj.
  - rewrite case_at_resolved. case_decide as Hij; [|done].
    subst i. by destruct Hj.
Qed.

(** ** What a record keeps *)

(** X5: once [createCase] has succeeded for [i] with a caller that
    passes the existence test, every later state answers
    [getEncryptedSymptoms i] with the handle the provider admitted in
    that call, and shows the caller and the block time of that call as
    owner and creation time. *)
Theorem admitted_handle_kept (s : State) (m m' : Msg) (i : string)
    (e : externalEuint32) (p : bytes) (rest : list (Msg * Call)) :
  succeeds this s m (CreateCase i e p) = true →
  0 < address_bytes_length (msg_sender m) →
  ∃ h, fromExternal (msg_sender m) e p = Some h
       ∧ transact this (run this (fst (transact this s m (CreateCase i e p))) rest) m'
           (GetEncryptedSymptoms i)
         = (run this (fst (transact this s m (CreateCase i e p))) rest,
            Ok (VHandle h))
       ∧ patientAddress
           (case_at (run this (fst (transact this s m (CreateCase i e p))) rest) i)
         = msg_sender m
       ∧ timestamp
           (case_at (run this (fst (transact this s m (CreateCase i e p))) rest) i)
         = block_timestamp m.
Proof.
  intros Hok Hm.
  destruct (create_succeeds_inv this s m i e p) as (h & _ & Hext & _ & ->).
  { unfold succeeds in Hok.
    destruct (snd (transact this s m (CreateCase i e p))) as [v|] eqn:Hr; [|done].
    rewrite transact_create in Hr.
    destruct (createCase this m i e p s) as [[[] ?]|]; simpl in Hr; congruence. }
  assert (Hc : case_at (created_state this s m i h) i
               = mkCase (msg_sender m) h 0 false (block_timestamp m)).
  { by rewrite case_at_created, decide_True. }
  destruct (existing_run this (created_state this s m i h) rest i)
    as (Howner & Hhandle & Htime).
  { rewrite Hc. exact Hm. }
  rewrite Hc in Howner, Hhandle, Htime. simpl in Howner, Hhandle, Htime.
  exists h. split; [done|]. split; [|done].
  rewrite transact_symptoms, Howner, Hhandle.
  destruct (0 <? address_bytes_length (msg_sender m)) eqn:Hz; [done|lia].
Qed.

Lemma handles_granted_init : handles_granted this init_state.
Proof. intros i. rewrite case_at_init. by split. Qed.

Lemma handles_granted_step (s : State) (m : Msg) (c : Call) :
  handles_granted this s → handles_granted this (fst (transact this s m c)).
Proof.
  intros Hs.
  destruct (transact_effect this s m c)
    as [_|j e p h0 -> _ _ _ Hne|j enc proof v -> _ _ _ _ _]; [done| |].
  - intros i. rewrite case_at_created. case_decide as Hij; simpl.
    + split; [done|]. intros _.
      split; apply elem_of_union_l; by apply elem_of_singleton.
    + destruct (Hs i) as [Hinit Hgrant]. split; [done|].
      intros Hh. pose proof (Hgrant Hh) as [Hp Ha].
      split; [apply elem_of_union_r, Hp|apply elem_of_union_r, Ha].
  - intros i. rewrite case_at_resolved. case_decide as Hij; simpl; [|apply Hs].
    subst j. apply Hs.
Qed.

(** X6: after every history, each existing record has an initialised
    handle, and each initialised stored handle is flagged publicly
    decryptable and is allowed to the contract itself. *)
Theorem handles_always_granted (h : list (Msg * Call)) :
  handles_granted this (run this init_state h).
Proof.
  generalize handles_granted_init. generalize init_state.
  induction h as [|[m c] h IH]; intros s Hs; [done|].
  simpl. apply IH. by apply handles_granted_step.
Qed.

Lemma results_in_range_step (s : State) (m : Msg) (c : Call) :
  results_in_range s → results_in_range (fst (transact this s m c)).
Proof.
  intros Hs.
  destruct (transact_effect this s m c)
    as [_|j e p h0 -> _ _ _ _|j enc proof v -> _ _ _ _ Hdec]; [done| |].
  - intros i. rewrite case_at_created. case_decide; simpl; [lia|apply Hs].
  - intros i. rewrite case_at_resolved. case_decide; simpl; [|apply Hs].
    by apply (abi_decode_range enc).
Qed.

(** X7: after every history every stored result is a uint32, whatever
    payloads were submitted. *)
Theorem results_always_in_range (h : list (Msg * Call)) :
  results_in_range (run this init_state h).
Proof.
  assert (Hinit : results_in_range init_state).
  { intros i. rewrite case_at_init. simpl. lia. }
  revert Hinit. generalize init_state.
  induction h as [|[m c] h IH]; intros s Hs; [done|].
  simpl. apply IH. by apply results_in_range_step.
Qed.

(** ** The getter of the catalog *)

Lemma transact_caseIds_getter (s : State) (m : Msg) (n : Z) :
  transact this s m (CaseIdsGetter n)
  = (s, if (0 <=? n) && (n <? Z.of_nat (length (caseIds s)))
        then match caseIds s !! Z.to_nat n with
             | Some i => Ok (VString i)
             | None => Revert IndexOutOfBounds
             end
        else Revert IndexOutOfBounds).
Proof.
  unfold transact, dispatch, tx_map, tx_bind, tx_ret, caseIds_getter.
  destruct (_ && _); [|done]. by destruct (caseIds s !! Z.to_nat n).
Qed.

(** X9: the getter [caseIds(n)] returns the [n]-th identifier that
    [getAllCaseIds] lists and reverts for an index past the end; an
    index that has an answer keeps that answer in every later state. *)
Theorem caseIds_getter_stable (s : State) (m m' : Msg) (n : Z)
    (rest : list (Msg * Call)) :
  (0 ≤ n < Z.of_nat (length (caseIds s)) →
   ∃ i, caseIds s !! Z.to_nat n = Some i
        ∧ transact this s m (CaseIdsGetter n) = (s, Ok (VString i))
        ∧ transact this (run this s rest) m' (CaseIdsGetter n)
          = (run this s rest, Ok (VString i)))
  ∧ (Z.of_nat (length (caseIds s)) ≤ n →
     transact this s m (CaseIdsGetter n) = (s, Revert IndexOutOfBounds)).
Proof.
  split.
  - intros Hn.
    destruct (caseIds s !! Z.to_nat n) as [i|] eqn:Hi.
    2:{ apply lookup_ge_None in Hi. lia. }
    exists i. split; [done|].
    rewrite !transact_caseIds_getter, caseIds_run, length_app.
    rewrite lookup_app_l by (apply lookup_lt_Some in Hi; done). rewrite Hi.
    destruct (0 <=? n) eqn:H0; [|lia].
    destruct (n <? Z.of_nat (length (caseIds s))) eqn:H1; [|lia].
    destruct (n <? Z.of_nat (length (caseIds s) + length (created this s rest)))
      eqn:H2; [done|].
    apply Z.ltb_ge in H2. rewrite Nat2Z.inj_add in H2. lia.
  - intros Hn. rewrite transact_caseIds_getter.
    destruct (n <? Z.of_nat (length (caseIds s))) eqn:H1; [lia|].
    by rewrite andb_false_r.
Qed.

End Ledger.

(** * The properties on the test doubles *)

Lemma diagnose_at_most_once_witness :
  resolutions (fhe := demo_fhe) (ab := unset_is_empty) demo_this "case-A" init_state demo_resolved = [42]
  ∧ transact (fhe := demo_fhe) (ab := unset_is_empty) demo_this
      (run (fhe := demo_fhe) (ab := unset_is_empty) demo_this init_state demo_resolved) alice
      (DiagnoseCase "case-A" (abi_encode_uint32 7)
         (demo_proof [99] (abi_encode_uint32 7)))
    = (run (fhe := demo_fhe) (ab := unset_is_empty) demo_this init_state demo_resolved,
       Revert CaseAlreadyDiagnosed).
Proof.
  destruct (diagnose_at_most_once (fhe := demo_fhe) (ab := unset_is_empty) demo_this demo_resolved "case-A")
    as (_ & Hyes & _).
  destruct Hyes as [Hres Hfail]; [vm_compute; reflexivity|].
  split; [rewrite Hres; vm_compute; reflexivity|apply Hfail].
Defined.

Lemma round_trip_42_witness :
  ∃ s2,
    transact (fhe := demo_fhe) (ab := unset_is_empty) demo_this
      (run (fhe := demo_fhe) (ab := unset_is_empty) demo_this
         (fst (transact (fhe := demo_fhe) (ab := unset_is_empty) demo_this
                 init_state alice (CreateCase "case-A" 99 [x01])))
         [(bob, GetAllCaseIds)])
      bob (DiagnoseCase "case-A" (abi_encode_uint32 42)
             (demo_proof [99] (abi_encode_uint32 42)))
    = (s2, Ok VUnit)
    ∧ ∀ rest m'',
        transact (fhe := demo_fhe) (ab := unset_is_empty) demo_this
          (run (fhe := demo_fhe) (ab := unset_is_empty) demo_this s2 rest) m''
          (GetCaseDetails "case-A")
        = (run (fhe := demo_fhe) (ab := unset_is_empty) demo_this s2 rest,
           Ok (VDetails (161, 42, true, 1000))).
Proof.
  apply (round_trip_42 (fhe := demo_fhe) (ab := unset_is_empty) demo_this
           init_state _ alice bob
           "case-A" 99 [x01] (demo_proof [99] (abi_encode_uint32 42)) 99
           [(bob, GetAllCaseIds)]).
  - vm_compute; reflexivity.
  - vm_compute; reflexivity.
  - vm_compute; reflexivity.
  - vm_compute; reflexivity.
  - vm_compute; reflexivity.
Defined.

Lemma rejected_proof_no_effect_witness :
  transact (fhe := demo_fhe) (ab := unset_is_empty) demo_this
    (run (fhe := demo_fhe) (ab := unset_is_empty) demo_this init_state demo_created)
    bob
    (DiagnoseCase "case-A" (abi_encode_uint32 42)
       (demo_proof [99] (abi_encode_uint32 43)))
  = (run (fhe := demo_fhe) (ab := unset_is_empty) demo_this init_state demo_created,
     Revert SignaturesRejected).
Proof.
  apply (rejected_proof_no_effect (fhe := demo_fhe) (ab := unset_is_empty) demo_this
           (run (fhe := demo_fhe) (ab := unset_is_empty) demo_this init_state
              demo_created)
           bob "case-A" (abi_encode_uint32 42)
           (demo_proof [99] (abi_encode_uint32 43))).
  - vm_compute; reflexivity.
  - vm_compute; reflexivity.
  - vm_compute; reflexivity.
Defined.

Lemma admission_grants_decryption_witness :
  (99 : Z) ∈ publiclyDecryptable
    (acl (run (fhe := demo_fhe) (ab := unset_is_empty) demo_this
            (fst (transact (fhe := demo_fhe) (ab := unset_is_empty) demo_this init_state alice
                    (CreateCase "case-A" 99 [x01])))
            [(bob, DiagnoseCase "case-A" (abi_encode_uint32 42)
                     (demo_proof [99] (abi_encode_uint32 42)))])).
Proof.
  destruct (admission_grants_decryption (fhe := demo_fhe) (ab := unset_is_empty) demo_this)
    as (Hgrant & _ & _).
  destruct (Hgrant init_state alice "case-A" 99 [x01]) as [_ Hkeeps];
    [vm_compute; reflexivity|].
  exact (Hkeeps [(bob, DiagnoseCase "case-A" (abi_encode_uint32 42)
                         (demo_proof [99] (abi_encode_uint32 42)))]).
Defined.


Lemma other_records_untouched_witness :
  case_at (fst (transact (fhe := demo_fhe) (ab := unset_is_empty) demo_this
                  (run (fhe := demo_fhe) (ab := unset_is_empty) demo_this init_state demo_created) bob
                  (CreateCase "case-B" 98 [x02])))
    "case-A"
  = case_at (run (fhe := demo_fhe) (ab := unset_is_empty) demo_this init_state demo_created) "case-A".
Proof.
  apply (other_records_untouched (fhe := demo_fhe) (ab := unset_is_empty) demo_this
           (run (fhe := demo_fhe) (ab := unset_is_empty) demo_this init_state demo_created) bob
           (CreateCase "case-B" 98 [x02]) "case-A").
  simpl. discriminate.
Defined.

Lemma admitted_handle_kept_witness :
  ∃ h, fromExternal (FheProvider := demo_fhe) 161 99 [x01] = Some h
       ∧ transact (fhe := demo_fhe) (ab := unset_is_empty) demo_this
           (run (fhe := demo_fhe) (ab := unset_is_empty) demo_this
              (fst (transact (fhe := demo_fhe) (ab := unset_is_empty) demo_this init_state alice
                      (CreateCase "case-A" 99 [x01])))
              [(bob, DiagnoseCase "case-A" (abi_encode_uint32 42)
                       (demo_proof [99] (abi_encode_uint32 42)))])
           bob (GetEncryptedSymptoms "case-A")
         = (run (fhe := demo_fhe) (ab := unset_is_empty) demo_this
              (fst (transact (fhe := demo_fhe) (ab := unset_is_empty) demo_this init_state alice
                      (CreateCase "case-A" 99 [x01])))
              [(bob, DiagnoseCase "case-A" (abi_encode_uint32 42)
                       (demo_proof [99] (abi_encode_uint32 42)))],
            Ok (VHandle h)).
Proof.
  destruct (admitted_handle_kept (fhe := demo_fhe) (ab := unset_is_empty) demo_this init_state alice bob
              "case-A" 99 [x01]
              [(bob, DiagnoseCase "case-A" (abi_encode_uint32 42)
                       (demo_proof [99] (abi_encode_uint32 42)))])
    as (h & Hext & Hget & _).
  - vm_compute; reflexivity.
  - vm_compute; reflexivity.
  - exists h. split; [exact Hext|exact Hget].
Defined.

Lemma caseIds_getter_stable_witness :
  transact (fhe := demo_fhe) (ab := unset_is_empty) demo_this
    (run (fhe := demo_fhe) (ab := unset_is_empty) demo_this
       (run (fhe := demo_fhe) (ab := unset_is_empty) demo_this init_state demo_created)
       [(bob, CreateCase "case-B" 98 [x02])])
    bob (CaseIdsGetter 0)
  = (run (fhe := demo_fhe) (ab := unset_is_empty) demo_this
       (run (fhe := demo_fhe) (ab := unset_is_empty) demo_this init_state demo_created)
       [(bob, CreateCase "case-B" 98 [x02])],
     Ok (VString "case-A"))
  ∧ transact (fhe := demo_fhe) (ab := unset_is_empty) demo_this
      (run (fhe := demo_fhe) (ab := unset_is_empty) demo_this init_state demo_created) alice
      (CaseIdsGetter 1)
    = (run (fhe := demo_fhe) (ab := unset_is_empty) demo_this init_state demo_created,
       Revert IndexOutOfBounds).
Proof.
  destruct (caseIds_getter_stable (fhe := demo_fhe) (ab := unset_is_empty) demo_this
              (run (fhe := demo_fhe) (ab := unset_is_empty) demo_this init_state demo_created)
              alice bob 0 [(bob, CreateCase "case-B" 98 [x02])])
    as [Hin _].
  destruct (caseIds_getter_stable (fhe := demo_fhe) (ab := unset_is_empty) demo_this
              (run (fhe := demo_fhe) (ab := unset_is_empty) demo_this init_state demo_created)
              alice bob 1 [(bob, CreateCase "case-B" 98 [x02])])
    as [_ Hout].
  split.
  - destruct Hin as (i & Hi & _ & Hlater); [vm_compute; split; congruence|].
    vm_compute in Hi. injection Hi as <-. exact Hlater.
  - apply Hout. vm_compute. congruence.
Defined.

(** * Counterexamples and remarks *)

(** The two store literals are the states the histories of the doubles
    reach when the existence test tells a written owner from the
    unwritten slot. *)
Lemma stores_reached :
  run (fhe := demo_fhe) (ab := unset_is_empty) demo_this init_state demo_created
  = open_store
  ∧ run (fhe := demo_fhe) (ab := unset_is_empty) demo_this init_state demo_resolved
    = resolved_store.
Proof. split; vm_compute; reflexivity. Qed.

(** Against C1 as stated: a resolution may commit the value 0; the
    record is then diagnosed while its result is the zero value an
    unresolved record shows. *)
Lemma diagnosed_with_zero :
  case_at (run (fhe := demo_fhe) (ab := unset_is_empty) demo_this init_state
             (demo_created
              ++ [(bob, DiagnoseCase "case-A" (abi_encode_uint32 0)
                          (demo_proof [99] (abi_encode_uint32 0)))]))
          "case-A"
  = mkCase 161 99 0 true 1000.
Proof. vm_compute. reflexivity. Qed.


(** The payload is checked against the proof before it is decoded, and a
    word outside the uint32 range is refused by the decoder. *)
Lemma decode_out_of_range :
  abi_decode_uint32 (be_bytes 32 (2 ^ 32)) = None
  ∧ abi_decode_uint32 (be_bytes 31 42) = None
  ∧ abi_decode_uint32 (abi_encode_uint32 42 ++ [x01]) = Some 42.
Proof. by vm_compute. Qed.

(** [Number] is exact on a uint32 and rounds above 2^53. *)
Lemma Number_rounds :
  Number (Some (2 ^ 32 - 1)) = Num (2 ^ 32 - 1)
  ∧ Number (Some (2 ^ 53 + 1)) = Num (2 ^ 53)
  ∧ Number (Some (2 ^ 53 + 3)) = Num (2 ^ 53 + 4)
  ∧ Number None = NaN.
Proof. by vm_compute. Qed.
